(** * google_places.js: the place-selection handler and its two extractors

    A shallow embedding of [src/frontend/static/js/google_places.js]:
    the [place_changed] listener installed by [initializeGooglePlaces],
    and the helpers [extractCity] and [extractCountry]. *)

From Stdlib Require Import ZArith Ascii String DecimalString.
From stdpp Require Import base decidable option list strings gmap.

Local Open Scope string_scope.
Local Open Scope list_scope.

(** ** JavaScript values used by the file *)

Module JS.

(** A JavaScript Number, kept in the form on which the language defines
    its conversion to string: a finite non-zero number is [s * 10^(n-k)],
    negated when [negative] is set, where [s] is the shortest digit string
    that reads back as the same number and [k] is the count of digits of
    [s]. *)
Inductive Number : Type :=
| NaN
| Infinity (negative : bool)
| Zero (negative : bool)
| Finite (negative : bool) (s : positive) (n : Z).

Definition digits (s : positive) : string :=
  NilEmpty.string_of_uint (Pos.to_uint s).

Fixpoint zeros (count : nat) : string :=
  match count with
  | O => ""
  | S c => String "0" (zeros c)
  end.

Definition decimal (z : Z) : string :=
  match z with
  | Z0 => "0"
  | Zpos p | Zneg p => digits p
  end.

(** Number::toString in radix 10 for a positive finite number with digit
    string [s] and decimal point position [n]. *)
Definition positive_toString (s : positive) (n : Z) : string :=
  let d := digits s in
  let k := Z.of_nat (String.length d) in
  if ((k <=? n) && (n <=? 21))%Z then
    d +:+ zeros (Z.to_nat (n - k))
  else if ((0 <? n) && (n <=? 21))%Z then
    substring 0 (Z.to_nat n) d +:+ "." +:+
    substring (Z.to_nat n) (Z.to_nat (k - n)) d
  else if ((-6 <? n) && (n <=? 0))%Z then
    "0." +:+ zeros (Z.to_nat (- n)) +:+ d
  else
    let e := (n - 1)%Z in
    let sign := if (e <? 0)%Z then "-" else "+" in
    if (k =? 1)%Z then
      d +:+ "e" +:+ sign +:+ decimal e
    else
      substring 0 1 d +:+ "." +:+
      substring 1 (String.length d - 1) d +:+
      "e" +:+ sign +:+ decimal e.

(** What a template literal does to a Number. *)
Definition toString (x : Number) : string :=
  match x with
  | NaN => "NaN"
  | Zero _ => "0"
  | Infinity neg => (if neg then "-" else "") +:+ "Infinity"
  | Finite neg s n => (if neg then "-" else "") +:+ positive_toString s n
  end.

(** [Array.prototype.includes] on an array of strings. *)
Fixpoint includes (arr : list string) (x : string) : bool :=
  match arr with
  | [] => false
  | y :: rest => if String.eqb y x then true else includes rest x
  end.

(** Truthiness of an optional string: [undefined] and [""] are falsy. *)
Definition truthy (v : option string) : bool :=
  match v with
  | None => false
  | Some s => negb (String.eqb s "")
  end.

(** The error raised when a property of [undefined] is read. *)
Inductive Error : Type := TypeError.

(** Outcome of evaluating an expression or running a statement. *)
Inductive Completion (A : Type) : Type :=
| Normal (a : A)
| Throw (e : Error).
Arguments Normal {A} a.
Arguments Throw {A} e.

End JS.

Import JS.

(** [Completion] is the error monad of throwing expressions. *)
#[global] Instance Completion_ret : MRet Completion := @Normal.
#[global] Instance Completion_bind : MBind Completion :=
  fun A B f c =>
    match c with
    | Normal a => f a
    | Throw e => Throw e
    end.

(** ** Place records, as the autocomplete widget returns them *)

Record AddressComponent : Type := {
  long_name : string;
  types : list string;
}.

Record LatLng : Type := {
  lat : Number;
  lng : Number;
}.

Record PlaceGeometry : Type := {
  location : option LatLng;
}.

(** [None] stands for a property that is [undefined] on the record. The
    display name is always a string: the widget fills it in even for text
    the user typed without picking a suggestion. *)
Record PlaceResult : Type := {
  place_id : option string;
  name : string;
  geometry : option PlaceGeometry;
  address_components : option (list AddressComponent);
}.

(** The object literal built at lines 24-33 and handed to the backend. *)
Module PlaceData.
Record t : Type := {
  destination_name : string;
  city : string;
  country : string;
  coordinates : list Number;
  place_id : option string;
}.
End PlaceData.

(** ** extractCity (lines 41-56) *)

(** The [for ... of] loop with its [break]; [city] is the variable's value
    on entry, the result its value on exit. *)
Fixpoint extractCity_loop (components : list AddressComponent) (city : string)
  : string :=
  match components with
  | [] => city
  | component :: rest =>
      if includes (types component) "locality"
         || includes (types component) "administrative_area_level_1"
      then long_name component
      else extractCity_loop rest city
  end.

Definition extractCity (place : PlaceResult) : string :=
  let city := "" in
  match address_components place with
  | Some components => extractCity_loop components city
  | None => city
  end.

(** ** extractCountry (lines 58-69) *)

Fixpoint extractCountry_loop (components : list AddressComponent)
  (country : string) : string :=
  match components with
  | [] => country
  | component :: rest =>
      if includes (types component) "country"
      then long_name component
      else extractCountry_loop rest country
  end.

Definition extractCountry (place : PlaceResult) : string :=
  let country := "" in
  match address_components place with
  | Some components => extractCountry_loop components country
  | None => country
  end.

(** ** The listener (lines 10-38) *)

(** [place.geometry.location]: reading [location] of an undefined
    [geometry] throws; so does calling a method of an undefined
    [location], which is the only use the file makes of it. *)
Definition geometry_location (place : PlaceResult) : Completion LatLng :=
  match geometry place with
  | None => Throw TypeError
  | Some g =>
      match location g with
      | None => Throw TypeError
      | Some l => Normal l
      end
  end.

(** The template literal of lines 16-18. *)
Definition fallbackKey (place : PlaceResult) : Completion string :=
  l1 ← geometry_location place;
  l2 ← geometry_location place;
  mret (name place +:+ "_" +:+ toString (lat l1) +:+ "_" +:+ toString (lng l2)).

(** [place.place_id || `...`] (lines 14-18). *)
Definition placeIdentifier (place : PlaceResult) : Completion string :=
  match place_id place with
  | Some id => if truthy (Some id) then Normal id else fallbackKey place
  | None => fallbackKey place
  end.

(** The object literal of lines 24-33, its fields evaluated in order. *)
Definition placeData (place : PlaceResult) : Completion PlaceData.t :=
  let destination_name := name place in
  let city := extractCity place in
  let country := extractCountry place in
  l1 ← geometry_location place;
  l2 ← geometry_location place;
  mret {| PlaceData.destination_name := destination_name;
          PlaceData.city := city;
          PlaceData.country := country;
          PlaceData.coordinates := [lat l1; lng l2];
          PlaceData.place_id := place_id place |}.

(** A run of the listener reads and updates the [seenPlaces] set of the
    enclosing call of [initializeGooglePlaces], calls [sendPlaceToBackend]
    some number of times, and ends normally or by throwing. *)
Definition Handler (A : Type) : Type :=
  gset string -> gset string * list PlaceData.t * Completion A.

Definition handler_ret {A : Type} (a : A) : Handler A :=
  fun seen => (seen, [], Normal a).

Definition handler_bind {A B : Type} (c : Handler A) (f : A -> Handler B)
  : Handler B :=
  fun seen =>
    match c seen with
    | (seen1, sent1, Normal a) =>
        match f a seen1 with
        | (seen2, sent2, r) => (seen2, sent1 ++ sent2, r)
        end
    | (seen1, sent1, Throw e) => (seen1, sent1, Throw e)
    end.

Declare Scope handler_scope.
Delimit Scope handler_scope with handler.
Notation "x <- c ;; k" := (handler_bind c (fun x => k))
  (at level 100, c at next level, right associativity) : handler_scope.
Notation "c ;; k" := (handler_bind c (fun _ => k))
  (at level 100, right associativity) : handler_scope.

Definition eval {A : Type} (c : Completion A) : Handler A :=
  fun seen => (seen, [], c).

Definition seenPlaces_has (k : string) : Handler bool :=
  fun seen => (seen, [], Normal (bool_decide (k ∈ seen))).

Definition seenPlaces_add (k : string) : Handler unit :=
  fun seen => ({[k]} ∪ seen, [], Normal tt).

(** The backend call is defined outside this file; only the fact that it
    is called, and with which argument, is recorded. *)
Definition sendPlaceToBackend (data : PlaceData.t) : Handler unit :=
  fun seen => (seen, [data], Normal tt).

Definition place_changed (place : PlaceResult) : Handler unit :=
  (id <- eval (placeIdentifier place) ;;
   seen <- seenPlaces_has id ;;
   if negb seen then
     (seenPlaces_add id ;;
      data <- eval (placeData place) ;;
      sendPlaceToBackend data)
   else handler_ret tt)%handler.

(** [new Set()] at line 8: the set the listener closes over. *)
Definition initializeGooglePlaces : gset string := ∅.

(** ** A page session: the events delivered to the listener, in order *)

(** One entry per event: the record selected, the payloads sent while the
    listener ran, and how the listener ended. An exception thrown by a
    listener is reported by the browser and does not stop later events. *)
Definition Entry : Type := PlaceResult * list PlaceData.t * Completion unit.

Fixpoint session (seen : gset string) (events : list PlaceResult)
  : gset string * list Entry :=
  match events with
  | [] => (seen, [])
  | place :: rest =>
      match place_changed place seen with
      | (seen1, sent, r) =>
          match session seen1 rest with
          | (seen2, log) => (seen2, (place, sent, r) :: log)
          end
      end
  end.

(** The number of backend submissions made by events whose computed
    identifier is [id]. *)
Fixpoint submissions (id : string) (log : list Entry) : nat :=
  match log with
  | [] => 0
  | (place, sent, _) :: rest =>
      match placeIdentifier place with
      | Normal k => if decide (k = id) then length sent else 0
      | Throw _ => 0
      end + submissions id rest
  end.

(** ** Vocabulary of the specification *)

(** A component carries a category tag. *)
Definition tagged (tag : string) (component : AddressComponent) : Prop :=
  tag ∈ types component.

(** The components [extractCity] stops at. *)
Definition city_like (component : AddressComponent) : Prop :=
  tagged "locality" component ∨ tagged "administrative_area_level_1" component.

#[global] Instance tagged_dec tag c : Decision (tagged tag c) :=
  decide (tag ∈ types c).

#[global] Instance city_like_dec c : Decision (city_like c) :=
  decide (tagged "locality" c ∨ tagged "administrative_area_level_1" c).

(** The coordinate data of a record, when it has any. *)
Definition coordinate_data (place : PlaceResult) : option LatLng :=
  match geometry place with
  | Some g => location g
  | None => None
  end.

(** The four ways a run of the listener can go. *)
Inductive run_shape (place : PlaceResult) (seen : gset string)
  : gset string * list PlaceData.t * Completion unit → Prop :=
| run_no_identifier e :
    placeIdentifier place = Throw e →
    run_shape place seen (seen, [], Throw e)
| run_duplicate id :
    placeIdentifier place = Normal id → id ∈ seen →
    run_shape place seen (seen, [], Normal tt)
| run_submit id data :
    placeIdentifier place = Normal id → id ∉ seen →
    placeData place = Normal data →
    run_shape place seen ({[id]} ∪ seen, [data], Normal tt)
| run_marked_then_threw id e :
    placeIdentifier place = Normal id → id ∉ seen →
    placeData place = Throw e →
    run_shape place seen ({[id]} ∪ seen, [], Throw e).

(** ** Records used in the scenarios *)

Definition eiffel : PlaceResult :=
  {| place_id := Some "p1";
     name := "Eiffel Tower";
     geometry :=
       Some {| location := Some {| lat := Finite false 488584 2;
                                   lng := Finite false 22945 1 |} |};
     address_components :=
       Some [ {| long_name := "Paris"; types := ["locality"] |};
              {| long_name := "France"; types := ["country"] |} ] |}.

Definition eiffel_payload : PlaceData.t :=
  {| PlaceData.destination_name := "Eiffel Tower";
     PlaceData.city := "Paris";
     PlaceData.country := "France";
     PlaceData.coordinates := [Finite false 488584 2; Finite false 22945 1];
     PlaceData.place_id := Some "p1" |}.

(** Name ["X"], latitude 1.0, longitude 2.0, and the given [place_id]. *)
Definition place_X (id : option string) : PlaceResult :=
  {| place_id := id;
     name := "X";
     geometry :=
       Some {| location := Some {| lat := Finite false 1 1;
                                   lng := Finite false 2 1 |} |};
     address_components := None |}.

(** What the widget returns for text entered without picking a
    suggestion: a name and nothing else. *)
Definition typed_text : PlaceResult :=
  {| place_id := None;
     name := "somewhere";
     geometry := None;
     address_components := None |}.

(** A record whose [geometry] object is there and has no [location]. *)
Definition geometry_without_location : PlaceResult :=
  {| place_id := None;
     name := "X";
     geometry := Some {| location := None |};
     address_components := None |}.

(** A record with a stable identifier and no geometry. *)
Definition p1_without_geometry : PlaceResult :=
  {| place_id := Some "p1";
     name := "Eiffel Tower";
     geometry := None;
     address_components := None |}.

(** ** Measures used in the further properties *)

(** The number of payloads sent over a whole log. *)
Fixpoint total_sent (log : list Entry) : nat :=
  match log with
  | [] => 0
  | (_, sent, _) :: rest => length sent + total_sent rest
  end.

(** The string has no underscore in it. *)
Fixpoint underscore_free (s : string) : bool :=
  match s with
  | EmptyString => true
  | String c rest => negb (Ascii.eqb c "_") && underscore_free rest
  end.

(** Two records as the second scenario has them: same name and
    coordinates, no stable identifier, different address components. *)
Definition place_X_with_city : PlaceResult :=
  {| place_id := None;
     name := "X";
     geometry :=
       Some {| location := Some {| lat := Finite false 1 1;
                                   lng := Finite false 2 1 |} |};
     address_components :=
       Some [ {| long_name := "Xville"; types := ["locality"] |} ] |}.

Example toString_1 : toString (Finite false 1 1) = "1".
Proof. reflexivity. Qed.

Example toString_lat : toString (Finite false 488584 2) = "48.8584".
Proof. reflexivity. Qed.

Example toString_neg_small : toString (Finite true 15 (-1)) = "-0.015".
Proof. reflexivity. Qed.

Example toString_exp : toString (Finite false 123 22) = "1.23e+21".
Proof. reflexivity. Qed.

Example toString_tiny : toString (Finite false 5 (-6)) = "5e-7".
Proof. reflexivity. Qed.

(** ** The extractors *)

Lemma includes_elem_of (arr : list string) (x : string) :
  includes arr x = true ↔ x ∈ arr.
Proof.
  induction arr as [|y arr IH]; simpl.
  - split; [discriminate | intros H; inversion H].
  - destruct (String.eqb_spec y x) as [->|Hne].
    + split; [intros _; left | reflexivity].
    + rewrite IH. split; [intros H; now right|].
      intros H. inversion H; subst; [congruence | assumption].
Qed.

Lemma includes_not_elem_of (arr : list string) (x : string) :
  includes arr x = false ↔ x ∉ arr.
Proof.
  rewrite <- includes_elem_of. destruct (includes arr x); split; congruence.
Qed.

Lemma city_test_true (c : AddressComponent) :
  includes (types c) "locality"
  || includes (types c) "administrative_area_level_1" = true ↔ city_like c.
Proof.
  unfold city_like, tagged. rewrite orb_true_iff, !includes_elem_of. tauto.
Qed.

Lemma extractCity_loop_hit before c after city :
  Forall (fun x => ¬ city_like x) before → city_like c →
  extractCity_loop (before ++ c :: after) city = long_name c.
Proof.
  intros Hbefore Hc. induction Hbefore as [|x before Hx _ IH]; simpl.
  - apply city_test_true in Hc. now rewrite Hc.
  - destruct (includes (types x) "locality"
              || includes (types x) "administrative_area_level_1") eqn:E.
    + apply city_test_true in E. contradiction.
    + exact IH.
Qed.

Lemma extractCity_loop_miss components city :
  Forall (fun x => ¬ city_like x) components →
  extractCity_loop components city = city.
Proof.
  induction 1 as [|x l Hx _ IH]; simpl; [reflexivity|].
  destruct (includes (types x) "locality"
            || includes (types x) "administrative_area_level_1") eqn:E.
  - apply city_test_true in E. contradiction.
  - exact IH.
Qed.

Lemma extractCountry_loop_hit before c after country :
  Forall (fun x => ¬ tagged "country" x) before → tagged "country" c →
  extractCountry_loop (before ++ c :: after) country = long_name c.
Proof.
  unfold tagged. intros Hbefore Hc.
  induction Hbefore as [|x before Hx _ IH]; simpl.
  - apply includes_elem_of in Hc. now rewrite Hc.
  - apply includes_not_elem_of in Hx. rewrite Hx. exact IH.
Qed.

Lemma extractCountry_loop_miss components country :
  Forall (fun x => ¬ tagged "country" x) components →
  extractCountry_loop components country = country.
Proof.
  unfold tagged. induction 1 as [|x l Hx _ IH]; simpl; [reflexivity|].
  apply includes_not_elem_of in Hx. now rewrite Hx.
Qed.

(** Every component sequence either has no component satisfying a decidable
    property or splits at the first one that does. *)
Lemma first_match_split {A : Type} (P : A → Prop) `{∀ x, Decision (P x)}
  (l : list A) :
  Forall (fun x => ¬ P x) l ∨
  ∃ before c after,
    l = before ++ c :: after ∧ Forall (fun x => ¬ P x) before ∧ P c.
Proof.
  induction l as [|x l IH].
  - left. constructor.
  - destruct (decide (P x)) as [Hx|Hx].
    + right. exists [], x, l. repeat split; [constructor | assumption].
    + destruct IH as [IH|(before & c & after & -> & Hb & Hc)].
      * left. now constructor.
      * right. exists (x :: before), c, after.
        repeat split; [now constructor | assumption].
Qed.

(** C2. [extractCity] returns the display name of the first component, in
    array order, tagged "locality" or "administrative_area_level_1"; so a
    component tagged "locality" with no such component before it is the one
    returned, whatever follows it; a record without address components, or
    with none so tagged, gives the empty string. *)
Theorem extractCity_first_match (place : PlaceResult) :
  (∀ before c after,
      address_components place = Some (before ++ c :: after) →
      Forall (fun x => ¬ city_like x) before →
      city_like c →
      extractCity place = long_name c)
  ∧ (∀ before c after,
      address_components place = Some (before ++ c :: after) →
      Forall (fun x => ¬ city_like x) before →
      tagged "locality" c →
      extractCity place = long_name c)
  ∧ (address_components place = None → extractCity place = "")
  ∧ (∀ components,
      address_components place = Some components →
      Forall (fun x => ¬ city_like x) components →
      extractCity place = "").
Proof.
  unfold extractCity. repeat split.
  - intros before c after -> Hb Hc. now apply extractCity_loop_hit.
  - intros before c after -> Hb Hc. apply extractCity_loop_hit; [assumption|].
    now left.
  - now intros ->.
  - intros components -> Hall. now apply extractCity_loop_miss.
Qed.

Lemma extractCity_first_match_witness :
  extractCity eiffel = "Paris"
  ∧ extractCity
      {| place_id := None; name := "Manchester";
         geometry := None;
         address_components :=
           Some [ {| long_name := "M1"; types := ["postal_code"] |};
                  {| long_name := "Manchester";
                     types := ["locality"; "political"] |};
                  {| long_name := "England";
                     types := ["administrative_area_level_1"] |} ] |}
    = "Manchester"
  ∧ extractCity typed_text = ""
  ∧ extractCity
      {| place_id := None; name := "Nowhere"; geometry := None;
         address_components :=
           Some [ {| long_name := "France"; types := ["country"] |} ] |}
    = "".
Proof.
  split; [|split; [|split]].
  - apply (proj1 (extractCity_first_match eiffel)
             [] {| long_name := "Paris"; types := ["locality"] |}
             [ {| long_name := "France"; types := ["country"] |} ]).
    + reflexivity.
    + constructor.
    + left. unfold tagged. simpl. apply list_elem_of_here.
  - apply (proj1 (proj2 (extractCity_first_match _))
             [ {| long_name := "M1"; types := ["postal_code"] |} ]
             {| long_name := "Manchester"; types := ["locality"; "political"] |}
             [ {| long_name := "England";
                  types := ["administrative_area_level_1"] |} ]).
    + reflexivity.
    + constructor; [|constructor].
      unfold city_like, tagged. simpl. intros [H|H];
        apply list_elem_of_In in H; simpl in H; intuition discriminate.
    + unfold tagged. simpl. apply list_elem_of_here.
  - apply (proj1 (proj2 (proj2 (extractCity_first_match typed_text)))).
    reflexivity.
  - apply (proj2 (proj2 (proj2 (extractCity_first_match _)))
             [ {| long_name := "France"; types := ["country"] |} ]).
    + reflexivity.
    + constructor; [|constructor].
      unfold city_like, tagged. simpl. intros [H|H];
        apply list_elem_of_In in H; simpl in H; intuition discriminate.
Defined.

(** C3. [extractCountry] returns the display name of the first component
    tagged "country"; a record without address components, or with no
    component so tagged, gives the empty string. *)
Theorem extractCountry_first_match (place : PlaceResult) :
  (∀ before c after,
      address_components place = Some (before ++ c :: after) →
      Forall (fun x => ¬ tagged "country" x) before →
      tagged "country" c →
      extractCountry place = long_name c)
  ∧ (address_components place = None → extractCountry place = "")
  ∧ (∀ components,
      address_components place = Some components →
      Forall (fun x => ¬ tagged "country" x) components →
      extractCountry place = "").
Proof.
  unfold extractCountry. repeat split.
  - intros before c after -> Hb Hc. now apply extractCountry_loop_hit.
  - now intros ->.
  - intros components -> Hall. now apply extractCountry_loop_miss.
Qed.

Lemma extractCountry_first_match_witness :
  extractCountry eiffel = "France"
  ∧ extractCountry typed_text = ""
  ∧ extractCountry
      {| place_id := None; name := "Nowhere"; geometry := None;
         address_components :=
           Some [ {| long_name := "Paris"; types := ["locality"] |} ] |}
    = "".
Proof.
  split; [|split].
  - apply (proj1 (extractCountry_first_match eiffel)
             [ {| long_name := "Paris"; types := ["locality"] |} ]
             {| long_name := "France"; types := ["country"] |} []).
    + reflexivity.
    + constructor; [|constructor].
      unfold tagged. simpl. intros H.
      apply list_elem_of_In in H; simpl in H; intuition discriminate.
    + unfold tagged. simpl. apply list_elem_of_here.
  - apply (proj1 (proj2 (extractCountry_first_match typed_text))).
    reflexivity.
  - apply (proj2 (proj2 (extractCountry_first_match _))
             [ {| long_name := "Paris"; types := ["locality"] |} ]).
    + reflexivity.
    + constructor; [|constructor].
      unfold tagged. simpl. intros H.
      apply list_elem_of_In in H; simpl in H; intuition discriminate.
Defined.

(** The cases of C2 and C3 leave no record out. *)
Lemma extractCity_cases (place : PlaceResult) :
  extractCity place = ""
  ∨ ∃ before c after,
      address_components place = Some (before ++ c :: after)
      ∧ Forall (fun x => ¬ city_like x) before ∧ city_like c
      ∧ extractCity place = long_name c.
Proof.
  unfold extractCity. destruct (address_components place) as [cs|]; [|now left].
  destruct (first_match_split city_like cs)
    as [Hnone|(before & c & after & -> & Hb & Hc)].
  - left. now apply extractCity_loop_miss.
  - right. exists before, c, after. repeat split; try assumption.
    now apply extractCity_loop_hit.
Qed.

Lemma extractCountry_cases (place : PlaceResult) :
  extractCountry place = ""
  ∨ ∃ before c after,
      address_components place = Some (before ++ c :: after)
      ∧ Forall (fun x => ¬ tagged "country" x) before ∧ tagged "country" c
      ∧ extractCountry place = long_name c.
Proof.
  unfold extractCountry.
  destruct (address_components place) as [cs|]; [|now left].
  destruct (first_match_split (tagged "country") cs)
    as [Hnone|(before & c & after & -> & Hb & Hc)].
  - left. now apply extractCountry_loop_miss.
  - right. exists before, c, after. repeat split; try assumption.
    now apply extractCountry_loop_hit.
Qed.

(** ** The identifier *)

Lemma geometry_location_coordinate_data (place : PlaceResult) :
  geometry_location place =
  match coordinate_data place with
  | Some l => Normal l
  | None => Throw TypeError
  end.
Proof.
  unfold geometry_location, coordinate_data.
  destruct (geometry place) as [g|]; [|reflexivity].
  now destruct (location g).
Qed.

Lemma fallbackKey_with_coordinates (place : PlaceResult) (l : LatLng) :
  coordinate_data place = Some l →
  fallbackKey place =
  Normal (name place +:+ "_" +:+ toString (lat l) +:+ "_" +:+ toString (lng l)).
Proof.
  intros H. unfold fallbackKey.
  now rewrite geometry_location_coordinate_data, H.
Qed.

Lemma fallbackKey_without_coordinates (place : PlaceResult) :
  coordinate_data place = None → fallbackKey place = Throw TypeError.
Proof.
  intros H. unfold fallbackKey.
  now rewrite geometry_location_coordinate_data, H.
Qed.

Lemma placeIdentifier_truthy (place : PlaceResult) (id : string) :
  place_id place = Some id → id ≠ "" → placeIdentifier place = Normal id.
Proof.
  intros H Hne. unfold placeIdentifier. rewrite H. simpl.
  destruct (String.eqb_spec id ""); [contradiction | reflexivity].
Qed.

Lemma placeIdentifier_falsy (place : PlaceResult) :
  place_id place = None ∨ place_id place = Some "" →
  placeIdentifier place = fallbackKey place.
Proof.
  intros [H|H]; unfold placeIdentifier; now rewrite H.
Qed.

Lemma placeData_with_coordinates (place : PlaceResult) (l : LatLng) :
  coordinate_data place = Some l →
  placeData place =
  Normal {| PlaceData.destination_name := name place;
            PlaceData.city := extractCity place;
            PlaceData.country := extractCountry place;
            PlaceData.coordinates := [lat l; lng l];
            PlaceData.place_id := place_id place |}.
Proof.
  intros H. unfold placeData.
  now rewrite geometry_location_coordinate_data, H.
Qed.

Lemma placeData_without_coordinates (place : PlaceResult) :
  coordinate_data place = None → placeData place = Throw TypeError.
Proof.
  intros H. unfold placeData.
  now rewrite geometry_location_coordinate_data, H.
Qed.

(** ** One run of the listener *)

Lemma place_changed_no_identifier place seen e :
  placeIdentifier place = Throw e →
  place_changed place seen = (seen, [], Throw e).
Proof.
  intros H. unfold place_changed, handler_bind, eval. now rewrite H.
Qed.

Lemma place_changed_seen place seen id :
  placeIdentifier place = Normal id → id ∈ seen →
  place_changed place seen = (seen, [], Normal tt).
Proof.
  intros H Hin.
  unfold place_changed, handler_bind, eval, seenPlaces_has. rewrite H.
  now rewrite (bool_decide_eq_true_2 _ Hin).
Qed.

Lemma place_changed_fresh_sent place seen id data :
  placeIdentifier place = Normal id → id ∉ seen →
  placeData place = Normal data →
  place_changed place seen = ({[id]} ∪ seen, [data], Normal tt).
Proof.
  intros H Hnotin Hdata.
  unfold place_changed, handler_bind, eval, seenPlaces_has. rewrite H.
  rewrite (bool_decide_eq_false_2 _ Hnotin). simpl. now rewrite Hdata.
Qed.

Lemma place_changed_fresh_throw place seen id e :
  placeIdentifier place = Normal id → id ∉ seen →
  placeData place = Throw e →
  place_changed place seen = ({[id]} ∪ seen, [], Throw e).
Proof.
  intros H Hnotin Hdata.
  unfold place_changed, handler_bind, eval, seenPlaces_has. rewrite H.
  rewrite (bool_decide_eq_false_2 _ Hnotin). simpl. now rewrite Hdata.
Qed.

Lemma place_changed_shape place seen :
  run_shape place seen (place_changed place seen).
Proof.
  destruct (placeIdentifier place) as [id|e] eqn:Hid.
  - destruct (decide (id ∈ seen)) as [Hin|Hnotin].
    + rewrite (place_changed_seen _ _ _ Hid Hin). exact (run_duplicate _ _ id Hid Hin).
    + destruct (placeData place) as [data|e] eqn:Hdata.
      * rewrite (place_changed_fresh_sent _ _ _ _ Hid Hnotin Hdata).
        exact (run_submit _ _ id data Hid Hnotin Hdata).
      * rewrite (place_changed_fresh_throw _ _ _ _ Hid Hnotin Hdata).
        exact (run_marked_then_threw _ _ id e Hid Hnotin Hdata).
  - rewrite (place_changed_no_identifier _ _ _ Hid).
    exact (run_no_identifier _ _ e Hid).
Qed.

Lemma place_changed_grows place seen :
  seen ⊆ (place_changed place seen).1.1.
Proof.
  destruct (place_changed_shape place seen); simpl; set_solver.
Qed.

(** ** Sessions *)

Lemma session_cons seen place rest :
  session seen (place :: rest) =
  ((session (place_changed place seen).1.1 rest).1,
   (place, (place_changed place seen).1.2, (place_changed place seen).2)
   :: (session (place_changed place seen).1.1 rest).2).
Proof.
  simpl. destruct (place_changed place seen) as [[seen1 sent] r]. simpl.
  now destruct (session seen1 rest).
Qed.

Lemma session_grows seen events :
  seen ⊆ (session seen events).1.
Proof.
  revert seen. induction events as [|place rest IH]; intros seen.
  - reflexivity.
  - rewrite session_cons. cbn [fst snd].
    transitivity (place_changed place seen).1.1;
      [apply place_changed_grows | apply IH].
Qed.

(** Once an identifier is in the set, no later event with that identifier
    submits anything. *)
Lemma submissions_after_seen id seen events :
  id ∈ seen → submissions id (session seen events).2 = 0.
Proof.
  revert seen. induction events as [|place rest IH]; intros seen Hin.
  - reflexivity.
  - rewrite session_cons. cbn [fst snd submissions].
    rewrite IH by (apply place_changed_grows; exact Hin).
    destruct (placeIdentifier place) as [k|e] eqn:Hk; [|reflexivity].
    destruct (decide (k = id)) as [->|Hne]; [|reflexivity].
    now rewrite (place_changed_seen _ _ _ Hk Hin).
Qed.

Lemma submissions_at_most_once id seen events :
  (submissions id (session seen events).2 ≤ 1)%nat.
Proof.
  revert seen. induction events as [|place rest IH]; intros seen.
  - simpl. lia.
  - rewrite session_cons. cbn [fst snd submissions].
    destruct (placeIdentifier place) as [k|e] eqn:Hk; [|apply IH].
    destruct (decide (k = id)) as [->|Hne]; [|apply IH].
    destruct (place_changed_shape place seen) as [e He|k Hk' Hin|k d Hk' Hn Hd|k e Hk' Hn Hd];
      simpl; try apply IH.
    rewrite submissions_after_seen; [lia|].
    assert (k = id) as -> by congruence. set_solver.
Qed.

(** Events with another identifier, or with none, leave [id] out of the
    set and submit nothing under it. *)
Lemma session_other_identifiers id seen before :
  Forall (fun x => placeIdentifier x ≠ Normal id) before →
  id ∉ seen →
  (id ∉ (session seen before).1)
  ∧ (submissions id (session seen before).2 = 0).
Proof.
  intros Hall. revert seen.
  induction Hall as [|place rest Hplace _ IH]; intros seen Hnotin.
  - now split.
  - rewrite session_cons. cbn [fst snd submissions].
    assert (id ∉ (place_changed place seen).1.1) as Hstill.
    { destruct (place_changed_shape place seen)
        as [e He|k Hk Hin|k d Hk Hn Hd|k e Hk Hn Hd]; simpl; try assumption.
      - assert (k ≠ id) as Hne by congruence.
        rewrite elem_of_union, elem_of_singleton. intros [?|?]; congruence.
      - assert (k ≠ id) as Hne by congruence.
        rewrite elem_of_union, elem_of_singleton. intros [?|?]; congruence. }
    destruct (IH _ Hstill) as [IH1 IH2]. split; [exact IH1|].
    rewrite IH2. destruct (placeIdentifier place) as [k|e]; [|reflexivity].
    destruct (decide (k = id)) as [->|Hne]; [congruence | reflexivity].
Qed.

Lemma session_app seen before after :
  session seen (before ++ after) =
  ((session (session seen before).1 after).1,
   (session seen before).2 ++ (session (session seen before).1 after).2).
Proof.
  revert seen. induction before as [|place rest IH]; intros seen.
  - simpl. now destruct (session seen after).
  - rewrite <- app_comm_cons, !session_cons. cbn [fst snd]. now rewrite IH.
Qed.

Lemma submissions_app id log1 log2 :
  submissions id (log1 ++ log2) = submissions id log1 + submissions id log2.
Proof.
  induction log1 as [|[[place sent] r] log1 IH]; simpl; [reflexivity|].
  rewrite IH. lia.
Qed.

Lemma submissions_exactly_once id seen before place after l :
  id ∉ seen →
  Forall (fun x => placeIdentifier x ≠ Normal id) before →
  placeIdentifier place = Normal id →
  coordinate_data place = Some l →
  submissions id (session seen (before ++ place :: after)).2 = 1.
Proof.
  intros Hnotin Hbefore Hid Hl.
  destruct (session_other_identifiers id seen before Hbefore Hnotin)
    as [Hstill Hzero].
  rewrite session_app. cbn [fst snd]. rewrite submissions_app, Hzero.
  rewrite session_cons. cbn [fst snd submissions]. rewrite Hid.
  destruct (decide (id = id)) as [_|]; [|congruence].
  rewrite (place_changed_fresh_sent _ _ _ _ Hid Hstill
             (placeData_with_coordinates _ _ Hl)). simpl.
  rewrite submissions_after_seen; [reflexivity | set_solver].
Qed.

(** ** Properties of the identifier *)

(** C4, as stated, fails: a record whose [place_id] is present but is the
    empty string does not get its [place_id] as identifier. *)
Lemma placeIdentifier_empty_place_id_not_used :
  ¬ (∀ (place : PlaceResult) (id : string),
        place_id place = Some id → placeIdentifier place = Normal id).
Proof.
  intros H. specialize (H (place_X (Some "")) "" eq_refl).
  vm_compute in H. discriminate H.
Qed.

(** C4, amended. The computed identifier is the record's [place_id] when
    that is present and not the empty string; when it is absent or empty
    and the record has coordinate data, the identifier is the display
    name, the latitude and the longitude joined by underscores. A record
    with no [place_id], name "X", latitude 1.0 and longitude 2.0 gets
    "X_1_2". *)
Theorem placeIdentifier_spec (place : PlaceResult) :
  (∀ id, place_id place = Some id → id ≠ "" →
         placeIdentifier place = Normal id)
  ∧ (∀ l, place_id place = None ∨ place_id place = Some "" →
          coordinate_data place = Some l →
          placeIdentifier place =
          Normal (name place +:+ "_" +:+ toString (lat l)
                             +:+ "_" +:+ toString (lng l)))
  ∧ placeIdentifier (place_X None) = Normal "X_1_2".
Proof.
  split; [|split].
  - intros id. apply placeIdentifier_truthy.
  - intros l Hfalsy Hl. rewrite (placeIdentifier_falsy _ Hfalsy).
    now apply fallbackKey_with_coordinates.
  - reflexivity.
Qed.

Lemma placeIdentifier_spec_witness :
  placeIdentifier eiffel = Normal "p1"
  ∧ placeIdentifier (place_X None) = Normal "X_1_2".
Proof.
  split.
  - apply (proj1 (placeIdentifier_spec eiffel) "p1").
    + reflexivity.
    + discriminate.
  - apply (proj1 (proj2 (placeIdentifier_spec (place_X None)))
             {| lat := Finite false 1 1; lng := Finite false 2 1 |}).
    + left. reflexivity.
    + reflexivity.
Defined.

(** C10. A [place_id] that is present but empty is treated as absent: the
    identifier is the fallback key, the same as for the record without
    [place_id]. *)
Theorem placeIdentifier_empty_is_absent (place : PlaceResult) :
  place_id place = Some "" →
  placeIdentifier place = fallbackKey place
  ∧ placeIdentifier place =
    placeIdentifier {| place_id := None;
                       name := name place;
                       geometry := geometry place;
                       address_components := address_components place |}
  ∧ (∀ l, coordinate_data place = Some l →
          placeIdentifier place =
          Normal (name place +:+ "_" +:+ toString (lat l)
                             +:+ "_" +:+ toString (lng l))).
Proof.
  intros H.
  assert (placeIdentifier place = fallbackKey place) as Hfb.
  { apply placeIdentifier_falsy. now right. }
  split; [exact Hfb|]. split.
  - rewrite Hfb. reflexivity.
  - intros l Hl. rewrite Hfb. now apply fallbackKey_with_coordinates.
Qed.

Lemma placeIdentifier_empty_is_absent_witness :
  place_id (place_X (Some "")) = Some ""
  ∧ placeIdentifier (place_X (Some "")) = Normal "X_1_2".
Proof.
  split; [reflexivity|].
  apply (proj2 (proj2 (placeIdentifier_empty_is_absent
                         (place_X (Some "")) eq_refl))
           {| lat := Finite false 1 1; lng := Finite false 2 1 |}).
  reflexivity.
Defined.

(** C7, as stated, fails: the presence of [geometry] alone does not make
    the fallback key computable; a record whose [geometry] has no
    [location] throws as well. *)
Lemma fallbackKey_geometry_without_location :
  ¬ (∀ place : PlaceResult,
        geometry place ≠ None → ∃ key, fallbackKey place = Normal key).
Proof.
  intros H.
  destruct (H geometry_without_location) as [key Hkey].
  - discriminate.
  - vm_compute in Hkey. discriminate Hkey.
Qed.

(** C7, amended. Some record has neither a stable identifier nor geometry,
    and on it the fallback key cannot be built: the identifier computation
    throws and so does the listener, whatever the seen-set. When the
    record has its coordinate data, that is both [geometry] and the
    [location] in it, the fallback key is always produced. *)
Theorem fallbackKey_needs_geometry :
  (∃ place,
      place_id place = None ∧ geometry place = None
      ∧ fallbackKey place = Throw TypeError
      ∧ placeIdentifier place = Throw TypeError
      ∧ ∀ seen, place_changed place seen = (seen, [], Throw TypeError))
  ∧ (∀ place l, coordinate_data place = Some l →
                ∃ key, fallbackKey place = Normal key).
Proof.
  split.
  - exists typed_text. split; [reflexivity|]. split; [reflexivity|].
    split; [reflexivity|]. split; [reflexivity|].
    intros seen. now apply place_changed_no_identifier.
  - intros place l Hl. eexists. exact (fallbackKey_with_coordinates _ _ Hl).
Qed.

Lemma fallbackKey_needs_geometry_witness :
  ∃ key, fallbackKey (place_X None) = Normal key.
Proof.
  apply (proj2 fallbackKey_needs_geometry (place_X None)
           {| lat := Finite false 1 1; lng := Finite false 2 1 |}).
  reflexivity.
Defined.

(** ** Properties of one event *)

(** C5. When the computed identifier is already in the seen-set the
    listener does nothing: the set is unchanged, nothing is sent, and the
    run ends normally. *)
Theorem place_changed_duplicate_is_noop seen place id :
  placeIdentifier place = Normal id → id ∈ seen →
  place_changed place seen = (seen, [], Normal tt).
Proof. apply place_changed_seen. Qed.

Lemma place_changed_duplicate_is_noop_witness :
  place_changed eiffel {["p1"]} = ({["p1"]}, [], Normal tt).
Proof.
  apply (place_changed_duplicate_is_noop {["p1"]} eiffel "p1").
  - reflexivity.
  - apply elem_of_singleton. reflexivity.
Defined.

(** C6, as stated, fails: a record with a fresh stable identifier and no
    geometry is marked as seen, and then nothing is submitted. *)
Lemma first_selection_without_geometry_sends_nothing :
  ¬ (∀ (seen : gset string) (place : PlaceResult) (id : string),
        placeIdentifier place = Normal id → id ∉ seen →
        ∃ data,
          place_changed place seen = ({[id]} ∪ seen, [data], Normal tt)).
Proof.
  intros H.
  destruct (H ∅ p1_without_geometry "p1" eq_refl (not_elem_of_empty _))
    as [data Hdata].
  rewrite (place_changed_fresh_throw p1_without_geometry ∅ "p1" TypeError
             eq_refl (not_elem_of_empty _) eq_refl) in Hdata.
  discriminate Hdata.
Qed.

(** C6, amended. When the computed identifier is not yet in the seen-set
    and the record has coordinate data, the listener adds the identifier to
    the set and sends exactly one payload, made of the display name, the
    extracted city and country, the coordinate pair and the record's
    [place_id]. On the Eiffel Tower record this is the payload of the
    scenario, and selecting the same record again sends nothing more. *)
Theorem place_changed_first_selection :
  (∀ seen place id l,
      placeIdentifier place = Normal id → id ∉ seen →
      coordinate_data place = Some l →
      place_changed place seen =
      ({[id]} ∪ seen,
       [ {| PlaceData.destination_name := name place;
            PlaceData.city := extractCity place;
            PlaceData.country := extractCountry place;
            PlaceData.coordinates := [lat l; lng l];
            PlaceData.place_id := place_id place |} ],
       Normal tt))
  ∧ place_changed eiffel initializeGooglePlaces =
    ({["p1"]}, [eiffel_payload], Normal tt)
  ∧ (session initializeGooglePlaces [eiffel; eiffel]).2 =
    [ (eiffel, [eiffel_payload], Normal tt); (eiffel, [], Normal tt) ].
Proof.
  split; [|split].
  - intros seen place id l Hid Hnotin Hl.
    apply (place_changed_fresh_sent _ _ _ _ Hid Hnotin).
    now apply placeData_with_coordinates.
  - vm_compute. reflexivity.
  - vm_compute. reflexivity.
Qed.

Lemma place_changed_first_selection_witness :
  place_changed (place_X None) {["p1"]} =
  ({["X_1_2"]} ∪ {["p1"]},
   [ {| PlaceData.destination_name := "X";
        PlaceData.city := "";
        PlaceData.country := "";
        PlaceData.coordinates := [Finite false 1 1; Finite false 2 1];
        PlaceData.place_id := None |} ],
   Normal tt).
Proof.
  apply (proj1 place_changed_first_selection {["p1"]} (place_X None) "X_1_2"
           {| lat := Finite false 1 1; lng := Finite false 2 1 |}).
  - reflexivity.
  - rewrite elem_of_singleton. discriminate.
  - reflexivity.
Defined.

(** C9. A first-time selection of a record without coordinate data makes
    the listener throw and send nothing; this is so even when the record
    carries a non-empty [place_id], in which case the identifier has
    already been added to the seen-set when the payload is built. *)
Theorem place_changed_without_geometry seen place :
  coordinate_data place = None →
  (∀ id, placeIdentifier place = Normal id → id ∉ seen) →
  (place_changed place seen).2 = Throw TypeError
  ∧ (place_changed place seen).1.2 = []
  ∧ (∀ id, place_id place = Some id → id ≠ "" →
           place_changed place seen = ({[id]} ∪ seen, [], Throw TypeError)).
Proof.
  intros Hnone Hfirst.
  pose proof (placeData_without_coordinates _ Hnone) as Hdata.
  assert (∀ id, placeIdentifier place = Normal id →
                place_changed place seen = ({[id]} ∪ seen, [], Throw TypeError))
    as Hfresh.
  { intros id Hid.
    exact (place_changed_fresh_throw _ _ _ _ Hid (Hfirst id Hid) Hdata). }
  split; [|split].
  - destruct (placeIdentifier place) as [id|[]] eqn:Hid.
    + now rewrite (Hfresh id eq_refl).
    + now rewrite (place_changed_no_identifier _ _ _ Hid).
  - destruct (placeIdentifier place) as [id|[]] eqn:Hid.
    + now rewrite (Hfresh id eq_refl).
    + now rewrite (place_changed_no_identifier _ _ _ Hid).
  - intros id Hsome Hne. apply Hfresh. now apply placeIdentifier_truthy.
Qed.

Lemma place_changed_without_geometry_witness :
  place_changed p1_without_geometry ∅ = ({["p1"]} ∪ ∅, [], Throw TypeError).
Proof.
  apply (proj2 (proj2 (place_changed_without_geometry ∅ p1_without_geometry
                         eq_refl (fun id _ => not_elem_of_empty id))) "p1").
  - reflexivity.
  - discriminate.
Defined.

(** ** Properties of a session *)

(** C8. The seen-set is empty when the listener is installed, and no run
    of the listener removes anything from it: the set after an event
    contains the set before it, and so does the set at the end of any
    sequence of events. *)
Theorem seenPlaces_only_grows :
  initializeGooglePlaces = ∅
  ∧ (∀ (seen : gset string) place, seen ⊆ (place_changed place seen).1.1)
  ∧ (∀ (seen : gset string) events, seen ⊆ (session seen events).1).
Proof.
  split; [reflexivity|]. split.
  - intros seen place. apply place_changed_grows.
  - intros seen events. apply session_grows.
Qed.

(** C1, as stated, fails: two selections of a record with a stable
    identifier and no geometry have equal identifiers and lead to no
    submission at all. *)
Lemma same_identifier_twice_zero_submissions :
  ¬ (∀ (events : list PlaceResult) (i j : nat) (e1 e2 : PlaceResult)
       (id : string),
        (i < j)%nat → events !! i = Some e1 → events !! j = Some e2 →
        placeIdentifier e1 = Normal id → placeIdentifier e2 = Normal id →
        submissions id (session initializeGooglePlaces events).2 = 1).
Proof.
  intros H.
  specialize (H [p1_without_geometry; p1_without_geometry] 0 1
                p1_without_geometry p1_without_geometry "p1"
                (Nat.lt_0_succ 0) eq_refl eq_refl eq_refl eq_refl).
  vm_compute in H. discriminate H.
Qed.

(** C1, amended. In a page session no identifier is submitted more than
    once: over any sequence of events, the events computing a given
    identifier make at most one backend submission between them; and they
    make exactly one when the first event computing that identifier
    selects a record with coordinate data, however many events with the
    same identifier follow. *)
Theorem identifier_submitted_at_most_once :
  (∀ events id,
      (submissions id (session initializeGooglePlaces events).2 ≤ 1)%nat)
  ∧ (∀ before place after id l,
      Forall (fun x => placeIdentifier x ≠ Normal id) before →
      placeIdentifier place = Normal id →
      coordinate_data place = Some l →
      submissions id
        (session initializeGooglePlaces (before ++ place :: after)).2 = 1).
Proof.
  split.
  - intros events id. apply submissions_at_most_once.
  - intros before place after id l. apply submissions_exactly_once.
    apply not_elem_of_empty.
Qed.

Lemma identifier_submitted_at_most_once_witness :
  submissions "p1"
    (session initializeGooglePlaces
       ([place_X None] ++ eiffel :: [eiffel; place_X None; eiffel])).2 = 1.
Proof.
  apply (proj2 identifier_submitted_at_most_once
           [place_X None] eiffel [eiffel; place_X None; eiffel] "p1"
           {| lat := Finite false 488584 2; lng := Finite false 22945 1 |}).
  - constructor; [|constructor]. discriminate.
  - reflexivity.
  - reflexivity.
Defined.

(** ** Further properties of the extractors *)

(** X1. A non-empty city comes from the record: it is the display name of
    one of the record's address components, and that component is tagged
    "locality" or "administrative_area_level_1". *)
Theorem extractCity_from_record (place : PlaceResult) :
  extractCity place ≠ "" →
  ∃ components c,
    address_components place = Some components
    ∧ c ∈ components ∧ city_like c ∧ long_name c = extractCity place.
Proof.
  intros Hne.
  destruct (extractCity_cases place)
    as [Hempty|(before & c & after & Hcs & _ & Hc & Hres)];
    [contradiction|].
  exists (before ++ c :: after), c. split; [exact Hcs|].
  split; [|split; [exact Hc | now symmetry]].
  apply elem_of_app. right. apply list_elem_of_here.
Qed.

Lemma extractCity_from_record_witness :
  ∃ components c,
    address_components eiffel = Some components
    ∧ c ∈ components ∧ city_like c ∧ long_name c = extractCity eiffel.
Proof.
  apply (extractCity_from_record eiffel). discriminate.
Defined.

(** X2. A non-empty country is the display name of one of the record's
    address components, and that component is tagged "country". *)
Theorem extractCountry_from_record (place : PlaceResult) :
  extractCountry place ≠ "" →
  ∃ components c,
    address_components place = Some components
    ∧ c ∈ components ∧ tagged "country" c
    ∧ long_name c = extractCountry place.
Proof.
  intros Hne.
  destruct (extractCountry_cases place)
    as [Hempty|(before & c & after & Hcs & _ & Hc & Hres)];
    [contradiction|].
  exists (before ++ c :: after), c. split; [exact Hcs|].
  split; [|split; [exact Hc | now symmetry]].
  apply elem_of_app. right. apply list_elem_of_here.
Qed.

Lemma extractCountry_from_record_witness :
  ∃ components c,
    address_components eiffel = Some components
    ∧ c ∈ components ∧ tagged "country" c
    ∧ long_name c = extractCountry eiffel.
Proof.
  apply (extractCountry_from_record eiffel). discriminate.
Defined.

(** ** Further properties of the identifier *)

Lemma truthy_false (v : option string) :
  truthy v = false ↔ v = None ∨ v = Some "".
Proof.
  destruct v as [s|]; simpl.
  - destruct (String.eqb_spec s "") as [->|Hne]; simpl.
    + split; [now right | reflexivity].
    + split; [discriminate | intros [?|?]; congruence].
  - split; [now left | reflexivity].
Qed.

Lemma placeIdentifier_of_falsy (place : PlaceResult) :
  truthy (place_id place) = false →
  placeIdentifier place = fallbackKey place.
Proof.
  intros H. apply placeIdentifier_falsy. now apply truthy_false.
Qed.

Lemma fallbackKey_inv (place : PlaceResult) (key : string) :
  fallbackKey place = Normal key →
  ∃ l, coordinate_data place = Some l
       ∧ key = name place +:+ "_" +:+ toString (lat l)
                          +:+ "_" +:+ toString (lng l).
Proof.
  intros H. destruct (coordinate_data place) as [l|] eqn:Hl.
  - exists l. split; [reflexivity|].
    rewrite (fallbackKey_with_coordinates _ _ Hl) in H. congruence.
  - rewrite (fallbackKey_without_coordinates _ Hl) in H. discriminate.
Qed.

Lemma append_underscore_nonempty (a b : string) : a +:+ "_" +:+ b ≠ "".
Proof. destruct a; discriminate. Qed.

Lemma placeIdentifier_not_empty (place : PlaceResult) (id : string) :
  placeIdentifier place = Normal id → id ≠ "".
Proof.
  unfold placeIdentifier. destruct (place_id place) as [s|] eqn:Hs.
  - simpl. destruct (String.eqb_spec s "") as [->|Hne]; simpl.
    + intros H. destruct (fallbackKey_inv _ _ H) as (l & _ & ->).
      apply append_underscore_nonempty.
    + congruence.
  - intros H. destruct (fallbackKey_inv _ _ H) as (l & _ & ->).
    apply append_underscore_nonempty.
Qed.

(** X3. The computed identifier is never the empty string, so the seen-set
    never holds the empty string as a key of a selected record. *)
Theorem placeIdentifier_nonempty (place : PlaceResult) (id : string) :
  placeIdentifier place = Normal id → id ≠ "".
Proof. apply placeIdentifier_not_empty. Qed.

Lemma placeIdentifier_nonempty_witness :
  placeIdentifier (place_X (Some "")) = Normal "X_1_2" ∧ "X_1_2" ≠ "".
Proof.
  split; [reflexivity|].
  apply (placeIdentifier_nonempty (place_X (Some "")) "X_1_2"). reflexivity.
Defined.

(** *** Rendered numbers have no underscore *)

Lemma underscore_free_app (a b : string) :
  underscore_free (a +:+ b) = underscore_free a && underscore_free b.
Proof.
  induction a as [|c a IH]; simpl; [reflexivity|].
  rewrite IH. now rewrite andb_assoc.
Qed.

Lemma underscore_free_substring (s : string) (n m : nat) :
  underscore_free s = true → underscore_free (substring n m s) = true.
Proof.
  revert n m. induction s as [|c s IH]; intros n m H.
  - now destruct n, m.
  - simpl in H. apply andb_true_iff in H as [Hc Hs].
    destruct n as [|n].
    + destruct m as [|m]; simpl; [reflexivity|].
      rewrite Hc. simpl. now apply IH.
    + simpl. now apply IH.
Qed.

Lemma underscore_free_uint (d : Decimal.uint) :
  underscore_free (NilEmpty.string_of_uint d) = true.
Proof. induction d; simpl; try assumption; reflexivity. Qed.

Lemma underscore_free_digits (p : positive) :
  underscore_free (digits p) = true.
Proof. apply underscore_free_uint. Qed.

Lemma underscore_free_zeros (n : nat) : underscore_free (zeros n) = true.
Proof. induction n; simpl; [reflexivity | assumption]. Qed.

Lemma underscore_free_decimal (z : Z) : underscore_free (decimal z) = true.
Proof. destruct z; simpl; try apply underscore_free_digits; reflexivity. Qed.

Lemma underscore_free_positive_toString (s : positive) (n : Z) :
  underscore_free (positive_toString s n) = true.
Proof.
  unfold positive_toString.
  repeat match goal with
         | |- context [if ?b then _ else _] => destruct b
         end;
    rewrite ?underscore_free_app, ?underscore_free_substring,
      ?underscore_free_zeros, ?underscore_free_decimal,
      ?underscore_free_digits;
    try reflexivity; apply underscore_free_digits.
Qed.

Lemma underscore_free_toString (x : Number) :
  underscore_free (toString x) = true.
Proof.
  destruct x as [|neg|neg|neg s n]; simpl; try reflexivity.
  - now destruct neg.
  - rewrite underscore_free_app, underscore_free_positive_toString.
    now destruct neg.
Qed.

Lemma underscore_inside (a b : string) :
  underscore_free (a +:+ String "_" b) = false.
Proof.
  rewrite underscore_free_app. simpl. now rewrite andb_false_r.
Qed.

Lemma append_nil_l (b : string) : "" +:+ b = b.
Proof. reflexivity. Qed.

Lemma append_cons (c : ascii) (a b : string) :
  String c a +:+ b = String c (a +:+ b).
Proof. reflexivity. Qed.

(** A string ending in an underscore and an underscore-free suffix is cut
    in one way only. *)
Lemma split_at_last_underscore (a1 a2 b1 b2 : string) :
  underscore_free b1 = true → underscore_free b2 = true →
  a1 +:+ "_" +:+ b1 = a2 +:+ "_" +:+ b2 → a1 = a2 ∧ b1 = b2.
Proof.
  intros H1 H2. revert a2.
  induction a1 as [|c a1 IH]; intros [|c' a2] Heq;
    rewrite ?append_cons, ?append_nil_l in Heq.
  - injection Heq as ->. now split.
  - injection Heq as <- ->. now rewrite underscore_inside in H1.
  - injection Heq as -> <-. now rewrite underscore_inside in H2.
  - injection Heq as -> Heq. destruct (IH _ Heq) as [-> ->]. now split.
Qed.

Lemma append_assoc (a b c : string) : (a +:+ b) +:+ c = a +:+ (b +:+ c).
Proof.
  induction a as [|x a IH]; [reflexivity|].
  now rewrite !append_cons, IH.
Qed.

(** X4. The fallback key can be read back: two records with coordinate
    data have the same fallback key exactly when they have the same display
    name and their latitudes and longitudes are rendered alike. A name with
    underscores in it cannot make two different records collide. *)
Theorem fallbackKey_collision (p q : PlaceResult) (lp lq : LatLng) :
  coordinate_data p = Some lp → coordinate_data q = Some lq →
  (fallbackKey p = fallbackKey q
   ↔ name p = name q
     ∧ toString (lat lp) = toString (lat lq)
     ∧ toString (lng lp) = toString (lng lq)).
Proof.
  intros Hp Hq.
  rewrite (fallbackKey_with_coordinates _ _ Hp),
    (fallbackKey_with_coordinates _ _ Hq).
  split.
  - intros Heq. injection Heq as Heq.
    rewrite <- !(append_assoc (name _) "_" (toString (lat _) +:+ _)) in Heq.
    rewrite <- !(append_assoc (name _ +:+ "_") (toString (lat _))) in Heq.
    apply split_at_last_underscore in Heq as [Heq Hlng];
      try apply underscore_free_toString.
    rewrite !append_assoc in Heq.
    apply split_at_last_underscore in Heq as [Hname Hlat];
      try apply underscore_free_toString.
    now repeat split.
  - intros (-> & -> & ->). reflexivity.
Qed.

Lemma fallbackKey_collision_witness :
  fallbackKey (place_X None) = fallbackKey place_X_with_city
  ↔ name (place_X None) = name place_X_with_city
    ∧ toString (Finite false 1 1) = toString (Finite false 1 1)
    ∧ toString (Finite false 2 1) = toString (Finite false 2 1).
Proof.
  apply (fallbackKey_collision (place_X None) place_X_with_city
           {| lat := Finite false 1 1; lng := Finite false 2 1 |}
           {| lat := Finite false 1 1; lng := Finite false 2 1 |});
    reflexivity.
Defined.

(** ** Further properties of the listener and of sessions *)

Lemma place_changed_seen_after place seen id :
  id ∈ (place_changed place seen).1.1
  ↔ id ∈ seen ∨ placeIdentifier place = Normal id.
Proof.
  destruct (place_changed_shape place seen)
    as [e He|k Hk Hin|k d Hk Hn Hd|k e Hk Hn Hd]; simpl.
  - split; [now left | intros [?|?]; [assumption | congruence]].
  - split; [now left|]. intros [?|?]; [assumption|].
    assert (k = id) as <- by congruence. assumption.
  - rewrite elem_of_union, elem_of_singleton. split.
    + intros [->|?]; [now right | now left].
    + intros [?|?]; [now right | left; congruence].
  - rewrite elem_of_union, elem_of_singleton. split.
    + intros [->|?]; [now right | now left].
    + intros [?|?]; [now right | left; congruence].
Qed.

Lemma session_seen_iff (seen : gset string) events id :
  id ∈ (session seen events).1
  ↔ id ∈ seen ∨ ∃ place, place ∈ events ∧ placeIdentifier place = Normal id.
Proof.
  revert seen. induction events as [|place rest IH]; intros seen.
  - simpl. split; [now left|].
    intros [?|(place & Hin & _)]; [assumption | inversion Hin].
  - rewrite session_cons. cbn [fst snd].
    rewrite IH, place_changed_seen_after. split.
    + intros [[?|?]|(q & Hq & Hid)].
      * now left.
      * right. exists place. split; [apply list_elem_of_here | assumption].
      * right. exists q. split; [now apply list_elem_of_further | assumption].
    + intros [?|(q & Hq & Hid)]; [now left; left|].
      apply elem_of_cons in Hq as [->|Hq].
      * left. now right.
      * right. now exists q.
Qed.

(** X5. At any point of a session the seen-set holds the identifiers it
    started with and the identifiers computed by the events so far, and
    nothing else: events whose identifier computation throws add nothing,
    events that throw while building the payload have still added
    theirs. *)
Theorem session_seen_exactly (seen : gset string) events id :
  id ∈ (session seen events).1
  ↔ id ∈ seen ∨ ∃ place, place ∈ events ∧ placeIdentifier place = Normal id.
Proof. apply session_seen_iff. Qed.

(** X6. After an event that computed an identifier, every later event
    computing the same identifier does nothing, whatever happened in
    between and whether or not the first one got as far as sending. *)
Theorem same_identifier_later_is_noop (seen : gset string) events p q id :
  p ∈ events →
  placeIdentifier p = Normal id → placeIdentifier q = Normal id →
  place_changed q (session seen events).1
  = ((session seen events).1, [], Normal tt).
Proof.
  intros Hp Hidp Hidq. apply (place_changed_seen _ _ id Hidq).
  apply session_seen_iff. right. now exists p.
Qed.

Lemma same_identifier_later_is_noop_witness :
  place_changed eiffel
    (session initializeGooglePlaces [p1_without_geometry; place_X None]).1
  = ((session initializeGooglePlaces [p1_without_geometry; place_X None]).1,
     [], Normal tt).
Proof.
  apply (same_identifier_later_is_noop initializeGooglePlaces
           [p1_without_geometry; place_X None]
           p1_without_geometry eiffel "p1").
  - apply list_elem_of_here.
  - reflexivity.
  - reflexivity.
Defined.

(** X7. The identifier is recorded before the payload is built. So when
    the first event computing an identifier selects a record without
    coordinate data, that identifier is never submitted in the session,
    also not by later events whose record has coordinates. *)
Theorem identifier_lost_after_throw before place after id :
  Forall (fun x => placeIdentifier x ≠ Normal id) before →
  placeIdentifier place = Normal id →
  coordinate_data place = None →
  submissions id
    (session initializeGooglePlaces (before ++ place :: after)).2 = 0.
Proof.
  intros Hbefore Hid Hnone.
  destruct (session_other_identifiers id initializeGooglePlaces before
              Hbefore (not_elem_of_empty _)) as [Hstill Hzero].
  rewrite session_app. cbn [fst snd]. rewrite submissions_app, Hzero.
  rewrite session_cons. cbn [fst snd submissions]. rewrite Hid.
  destruct (decide (id = id)) as [_|]; [|congruence].
  rewrite (place_changed_fresh_throw _ _ _ _ Hid Hstill
             (placeData_without_coordinates _ Hnone)). simpl.
  rewrite submissions_after_seen; [reflexivity | set_solver].
Qed.

Lemma identifier_lost_after_throw_witness :
  submissions "p1"
    (session initializeGooglePlaces
       ([place_X None] ++ p1_without_geometry :: [eiffel; eiffel])).2 = 0.
Proof.
  apply (identifier_lost_after_throw
           [place_X None] p1_without_geometry [eiffel; eiffel] "p1").
  - constructor; [|constructor]. discriminate.
  - reflexivity.
  - reflexivity.
Defined.

Lemma placeData_inv (place : PlaceResult) (data : PlaceData.t) :
  placeData place = Normal data →
  ∃ l, coordinate_data place = Some l
       ∧ data = {| PlaceData.destination_name := name place;
                   PlaceData.city := extractCity place;
                   PlaceData.country := extractCountry place;
                   PlaceData.coordinates := [lat l; lng l];
                   PlaceData.place_id := place_id place |}.
Proof.
  intros H. destruct (coordinate_data place) as [l|] eqn:Hl.
  - exists l. split; [reflexivity|].
    rewrite (placeData_with_coordinates _ _ Hl) in H. congruence.
  - rewrite (placeData_without_coordinates _ Hl) in H. discriminate.
Qed.

(** What one entry of a log can look like: nothing sent, or one payload,
    built from the entry's own record, on a run that ended normally. *)
Lemma place_changed_sends place seen :
  (place_changed place seen).1.2 = []
  ∨ ((place_changed place seen).2 = Normal tt
     ∧ ∃ l, coordinate_data place = Some l
            ∧ (place_changed place seen).1.2 =
              [ {| PlaceData.destination_name := name place;
                   PlaceData.city := extractCity place;
                   PlaceData.country := extractCountry place;
                   PlaceData.coordinates := [lat l; lng l];
                   PlaceData.place_id := place_id place |} ]).
Proof.
  destruct (place_changed_shape place seen)
    as [e He|k Hk Hin|k d Hk Hn Hd|k e Hk Hn Hd]; simpl;
    try (now left).
  right. split; [reflexivity|].
  destruct (placeData_inv _ _ Hd) as (l & Hl & ->). now exists l.
Qed.

(** X8. The log of a session has one entry per event, in order, and each
    entry sent either nothing or exactly one payload; a payload is sent
    only by a run that ends normally, only for a record with coordinate
    data, and it is the payload of the record selected at that event. A run
    that throws sends nothing. *)
Theorem session_log_well_formed (seen : gset string) events :
  map (fun entry : Entry => entry.1.1) (session seen events).2 = events
  ∧ Forall
      (fun entry : Entry =>
         entry.1.2 = []
         ∨ (entry.2 = Normal tt
            ∧ ∃ l, coordinate_data entry.1.1 = Some l
                   ∧ entry.1.2 =
                     [ {| PlaceData.destination_name := name entry.1.1;
                          PlaceData.city := extractCity entry.1.1;
                          PlaceData.country := extractCountry entry.1.1;
                          PlaceData.coordinates := [lat l; lng l];
                          PlaceData.place_id := place_id entry.1.1 |} ]))
      (session seen events).2.
Proof.
  revert seen. induction events as [|place rest IH]; intros seen.
  - split; [reflexivity | constructor].
  - rewrite session_cons. cbn [fst snd map].
    destruct (IH (place_changed place seen).1.1) as [IH1 IH2]. split.
    + now rewrite IH1.
    + constructor; [|exact IH2]. cbn [fst snd].
      apply place_changed_sends.
Qed.

Lemma place_changed_size place (seen : gset string) :
  (size seen + length (place_changed place seen).1.2
   ≤ size (place_changed place seen).1.1)%nat
  ∧ (size (place_changed place seen).1.1 ≤ size seen + 1)%nat.
Proof.
  destruct (place_changed_shape place seen)
    as [e He|k Hk Hin|k d Hk Hn Hd|k e Hk Hn Hd]; simpl;
    try (split; lia).
  - rewrite size_union by set_solver. rewrite size_singleton. split; lia.
  - rewrite size_union by set_solver. rewrite size_singleton. split; lia.
Qed.

(** X9. Every payload sent is paid for by a new identifier in the
    seen-set: over a session the set grows by at least the number of
    payloads sent and by at most the number of events. *)
Theorem session_size_bounds (seen : gset string) events :
  (size seen + total_sent (session seen events).2
   ≤ size (session seen events).1)%nat
  ∧ (size (session seen events).1 ≤ size seen + length events)%nat.
Proof.
  revert seen. induction events as [|place rest IH]; intros seen.
  - simpl. split; lia.
  - rewrite session_cons. cbn [fst snd total_sent length].
    destruct (IH (place_changed place seen).1.1) as [IH1 IH2].
    destruct (place_changed_size place seen) as [H1 H2].
    split; lia.
Qed.

(** X10. When the record has no usable [place_id] (absent or empty), the
    payload that is sent carries the record's [place_id] as it is, absent
    or empty: the key under which the record was recorded in the seen-set
    is the fallback key, and it is not what the backend receives. *)
Theorem fallback_key_is_not_sent place (seen : gset string) data :
  truthy (place_id place) = false →
  data ∈ (place_changed place seen).1.2 →
  PlaceData.place_id data = place_id place
  ∧ truthy (PlaceData.place_id data) = false
  ∧ ∃ key, fallbackKey place = Normal key
           ∧ key ∈ (place_changed place seen).1.1
           ∧ PlaceData.place_id data ≠ Some key.
Proof.
  intros Hfalsy Hin.
  destruct (place_changed_sends place seen) as [Hnil|(_ & l & Hl & Hsent)].
  - rewrite Hnil in Hin. inversion Hin.
  - rewrite Hsent in Hin. apply list_elem_of_singleton in Hin as ->.
    cbn [PlaceData.place_id]. split; [reflexivity|].
    split; [exact Hfalsy|].
    pose proof (placeIdentifier_of_falsy _ Hfalsy) as Hid.
    pose proof (fallbackKey_with_coordinates _ _ Hl) as Hkey.
    eexists. split; [exact Hkey|]. split.
    + apply place_changed_seen_after. right. now rewrite Hid.
    + intros Heq.
      apply truthy_false in Hfalsy as [Hnone|Hempty]; [congruence|].
      rewrite Hempty in Heq. injection Heq as Heq.
      exact (append_underscore_nonempty _ _ (eq_sym Heq)).
Qed.

Lemma fallback_key_is_not_sent_witness :
  PlaceData.place_id
    {| PlaceData.destination_name := "X";
       PlaceData.city := "";
       PlaceData.country := "";
       PlaceData.coordinates := [Finite false 1 1; Finite false 2 1];
       PlaceData.place_id := Some "" |} = place_id (place_X (Some ""))
  ∧ truthy (PlaceData.place_id
              {| PlaceData.destination_name := "X";
                 PlaceData.city := "";
                 PlaceData.country := "";
                 PlaceData.coordinates :=
                   [Finite false 1 1; Finite false 2 1];
                 PlaceData.place_id := Some "" |}) = false
  ∧ ∃ key, fallbackKey (place_X (Some "")) = Normal key
           ∧ key ∈ (place_changed (place_X (Some "")) ∅).1.1
           ∧ PlaceData.place_id
               {| PlaceData.destination_name := "X";
                  PlaceData.city := "";
                  PlaceData.country := "";
                  PlaceData.coordinates :=
                    [Finite false 1 1; Finite false 2 1];
                  PlaceData.place_id := Some "" |} ≠ Some key.
Proof.
  apply (fallback_key_is_not_sent (place_X (Some "")) ∅).
  - reflexivity.
  - vm_compute. apply list_elem_of_here.
Defined.

(** X11. Two records without a usable [place_id] that agree on the display
    name and on how their coordinates are rendered are one place to the
    listener: once the first has been selected, selecting the second sends
    nothing, even when the two differ in their address components. *)
Theorem same_name_and_coordinates_is_duplicate
  (seen : gset string) (p q : PlaceResult) (lp lq : LatLng) :
  truthy (place_id p) = false → truthy (place_id q) = false →
  name p = name q →
  coordinate_data p = Some lp → coordinate_data q = Some lq →
  toString (lat lp) = toString (lat lq) →
  toString (lng lp) = toString (lng lq) →
  place_changed q (place_changed p seen).1.1
  = ((place_changed p seen).1.1, [], Normal tt).
Proof.
  intros Hp Hq Hname Hlp Hlq Hlat Hlng.
  pose proof (placeIdentifier_of_falsy _ Hp) as Hidp.
  pose proof (placeIdentifier_of_falsy _ Hq) as Hidq.
  rewrite (fallbackKey_with_coordinates _ _ Hlp) in Hidp.
  rewrite (fallbackKey_with_coordinates _ _ Hlq) in Hidq.
  rewrite <- Hname, <- Hlat, <- Hlng in Hidq.
  apply (place_changed_seen _ _ _ Hidq).
  apply place_changed_seen_after. now right.
Qed.

Lemma same_name_and_coordinates_is_duplicate_witness :
  place_changed place_X_with_city (place_changed (place_X (Some "")) ∅).1.1
  = ((place_changed (place_X (Some "")) ∅).1.1, [], Normal tt).
Proof.
  apply (same_name_and_coordinates_is_duplicate ∅
           (place_X (Some "")) place_X_with_city
           {| lat := Finite false 1 1; lng := Finite false 2 1 |}
           {| lat := Finite false 1 1; lng := Finite false 2 1 |});
    reflexivity.
Defined.

(** X12. What a run of the listener sends, and how it ends, depends on the
    seen-set only through whether the record's own identifier is in it:
    identifiers of other places never change the outcome. *)
Theorem place_changed_depends_on_own_identifier
  (seen seen' : gset string) (place : PlaceResult) :
  (∀ id, placeIdentifier place = Normal id → (id ∈ seen ↔ id ∈ seen')) →
  (place_changed place seen).1.2 = (place_changed place seen').1.2
  ∧ (place_changed place seen).2 = (place_changed place seen').2.
Proof.
  intros Hagree.
  destruct (placeIdentifier place) as [id|e] eqn:Hid.
  - specialize (Hagree id eq_refl).
    destruct (decide (id ∈ seen)) as [Hin|Hnotin].
    + rewrite (place_changed_seen _ _ _ Hid Hin).
      rewrite (place_changed_seen _ _ _ Hid (proj1 Hagree Hin)). now split.
    + assert (id ∉ seen') as Hnotin' by (intros H; apply Hnotin, Hagree, H).
      destruct (placeData place) as [data|e] eqn:Hdata.
      * rewrite (place_changed_fresh_sent _ _ _ _ Hid Hnotin Hdata).
        rewrite (place_changed_fresh_sent _ _ _ _ Hid Hnotin' Hdata).
        now split.
      * rewrite (place_changed_fresh_throw _ _ _ _ Hid Hnotin Hdata).
        rewrite (place_changed_fresh_throw _ _ _ _ Hid Hnotin' Hdata).
        now split.
  - rewrite !(place_changed_no_identifier _ _ _ Hid). now split.
Qed.

Lemma place_changed_depends_on_own_identifier_witness :
  (place_changed eiffel ∅).1.2 = (place_changed eiffel {["X_1_2"]}).1.2
  ∧ (place_changed eiffel ∅).2 = (place_changed eiffel {["X_1_2"]}).2.
Proof.
  apply (place_changed_depends_on_own_identifier ∅ {["X_1_2"]} eiffel).
  intros id Hid. injection Hid as <-.
  rewrite elem_of_singleton. split.
  - intros H. destruct (not_elem_of_empty (C := gset string) _ H).
  - discriminate.
Defined.
